(** * vargas: variant graph, derived graphs, graph definitions

    A shallow embedding of the graph core of vargas:
    - the sequence codec of [include/utils.h],
    - [vargas::Graph], its nodes, its derivation constructors and its
      topological iterator ([include/graph.h], [src/graph.cpp]),
    - [vargas::GraphBuilder::ingroup] ([src/graph.cpp]),
    - the population loop of [Vargas::GraphManager::write] ([src/gdef.cpp]).

    Conventions.  C++ [long], [int] and [uchar] values are integers in [Z]
    (no arithmetic is performed on them here, so no wrap-around occurs);
    [std::vector] is [list]; [std::unordered_map] is stdpp's [gmap], whose
    iteration order is as unspecified as the one of the C++ container;
    [std::set<long>] is [gset Z].  A [float] allele frequency is a rational
    number: every finite float is one, and [>] on finite floats is [>] on the
    rationals.  A function that can throw returns an [outcome]. *)

From Stdlib Require Import ZArith QArith Ascii.
From stdpp Require Import gmap strings list fin_maps.

Local Open Scope Z_scope.

(** ** Outcomes of throwing and looping code *)

(** The standard exceptions thrown by the embedded code. *)
Inductive exn : Set :=
  | invalid_argument
  | domain_error
  | out_of_range
  | logic_error.

(** [Ok a]: normal return; [Throw e]: exception [e] propagates; [Undefined]:
    the source leaves the behaviour undefined (a remainder by zero); [Fuel]:
    the iteration budget given to a loop of the model is used up. *)
Inductive outcome (A : Type) : Type :=
  | Ok (a : A)
  | Throw (e : exn)
  | Undefined
  | Fuel.
Arguments Ok {A} a.
Arguments Throw {A} e.
Arguments Undefined {A}.
Arguments Fuel {A}.

#[global] Instance outcome_ret : MRet outcome := λ A a, Ok a.
#[global] Instance outcome_bind : MBind outcome := λ A B k m,
  match m with
  | Ok a => k a
  | Throw e => Throw e
  | Undefined => Undefined
  | Fuel => Fuel
  end.

(** [m.at(k)] on a map: throws [std::out_of_range] on a missing key. *)
Definition map_at {V} (m : gmap Z V) (k : Z) : outcome V :=
  match m !! k with
  | Some v => Ok v
  | None => Throw out_of_range
  end.

(** [v.at(i)] on a vector. *)
Definition vec_at {V} (v : list V) (i : nat) : outcome V :=
  match v !! i with
  | Some x => Ok x
  | None => Throw out_of_range
  end.

(** ** Sequence codec ([include/utils.h]) *)

(** [enum Base : uchar { A = 0, C = 1, G = 2, T = 3, N = 4 }]: a [Base] is an
    unsigned char, so a value of the type can be any of [0..255]. *)
Abbreviation Base := Z (only parsing).

Definition BaseA : Base := 0.
Definition BaseC : Base := 1.
Definition BaseG : Base := 2.
Definition BaseT : Base := 3.
Definition BaseN : Base := 4.

Definition base_to_num (c : ascii) : Base :=
  match c with
  | "A"%char | "a"%char => BaseA
  | "C"%char | "c"%char => BaseC
  | "G"%char | "g"%char => BaseG
  | "T"%char | "t"%char => BaseT
  | _ => BaseN
  end.

Definition num_to_base (num : Base) : ascii :=
  match num with
  | 0 => "A"%char
  | 1 => "C"%char
  | 2 => "G"%char
  | 3 => "T"%char
  | _ => "N"%char
  end.

(** [std::transform(seq.begin(), seq.end(), num.begin(), base_to_num)]. *)
Fixpoint seq_to_num (seq : string) : list Base :=
  match seq with
  | EmptyString => []
  | String c rest => base_to_num c :: seq_to_num rest
  end.

(** [for (auto &n : num) builder << num_to_base(n)]. *)
Fixpoint num_to_seq (num : list Base) : string :=
  match num with
  | [] => EmptyString
  | n :: rest => String (num_to_base n) (num_to_seq rest)
  end.

(** The characters of a string, and the upper-case alphabet of the codec. *)
Fixpoint chars (s : string) : list ascii :=
  match s with
  | EmptyString => []
  | String c rest => c :: chars rest
  end.

Definition upper_base (c : ascii) : Prop :=
  c = "A"%char ∨ c = "C"%char ∨ c = "G"%char ∨ c = "T"%char ∨ c = "N"%char.

(** ** Nodes ([vargas::Graph::Node]) *)

Record Node : Type := mkNode {
  _endPos : Z;
  _seq : list Base;
  _individuals : list bool;
  _ref : bool;
  _af : Q;
  _id : Z
}.

(** [freq() > freq()] on allele frequencies. *)
Definition af_gt (a b : Q) : bool :=
  match Qcompare a b with
  | Gt => true
  | _ => false
  end.

(** [int belongs(uint ind)]: [-1] for a reference node, else the bit of the
    individual.  [_individuals[ind]] is unchecked in the source; reading past
    the end is undefined there and reads as [0] here, and the statements that
    depend on it keep the index in range. *)
Definition belongs (n : Node) (ind : nat) : Z :=
  if _ref n then -1
  else if default false (_individuals n !! ind) then 1 else 0.

(** A C++ [int] used as a condition. *)
Definition truthy (x : Z) : bool := negb (x =? 0).

(** ** Graphs ([vargas::Graph]) *)

(** The node map is held through a [shared_ptr] that derived graphs copy; the
    derivation constructors only read it, so each graph value carries the map
    it sees. *)
Record Graph : Type := mkGraph {
  _root : Z;
  _IDMap : gmap Z Node;
  _next_map : gmap Z (list Z);
  _prev_map : gmap Z (list Z);
  _toposort : list Z;
  _add_order : list Z;
  _desc : string;
  _pop_size : Z
}.

(** [Graph()]: [_root = -1], a fresh empty node map, [_pop_size = 0]. *)
Definition new_graph : Graph :=
  {| _root := -1; _IDMap := ∅; _next_map := ∅; _prev_map := ∅;
     _toposort := []; _add_order := []; _desc := ""; _pop_size := 0 |}.

Definition set_root (g : Graph) (id : Z) : Graph :=
  {| _root := id; _IDMap := _IDMap g; _next_map := _next_map g;
     _prev_map := _prev_map g; _toposort := _toposort g;
     _add_order := _add_order g; _desc := _desc g; _pop_size := _pop_size g |}.

(** [long add_node(Node &n)]. *)
Definition add_node (g : Graph) (n : Node) : Z * Graph :=
  match _IDMap g !! _id n with
  | Some _ => (0, g)
  | None =>
      (_id n,
       {| _root := if _root g <? 0 then _id n else _root g;
          _IDMap := <[_id n := n]> (_IDMap g);
          _next_map := _next_map g;
          _prev_map := _prev_map g;
          _toposort := _toposort g;
          _add_order := _add_order g ++ [_id n];
          _desc := _desc g;
          _pop_size := _pop_size g |})
  end.

(** [m[k].push_back(x)] on an adjacency map, after the entry for [k] has been
    created when it was missing. *)
Definition init_entry (m : gmap Z (list Z)) (k : Z) : gmap Z (list Z) :=
  match m !! k with
  | Some _ => m
  | None => <[k := []]> m
  end.

Definition push_back_at (m : gmap Z (list Z)) (k x : Z) : gmap Z (list Z) :=
  <[k := default [] (m !! k) ++ [x]]> m.

(** [bool add_edge(long n1, long n2)]. *)
Definition add_edge (g : Graph) (n1 n2 : Z) : bool * Graph :=
  match _IDMap g !! n1, _IDMap g !! n2 with
  | Some _, Some _ =>
      (true,
       {| _root := _root g;
          _IDMap := _IDMap g;
          _next_map := push_back_at (init_entry (_next_map g) n1) n1 n2;
          _prev_map := push_back_at (init_entry (_prev_map g) n2) n2 n1;
          _toposort := [];
          _add_order := _add_order g;
          _desc := _desc g;
          _pop_size := _pop_size g |})
  | _, _ => (false, g)
  end.

(** [void finalize()]: the body is [_toposort = _add_order; return;], and the
    statements after the [return] are never run. *)
Definition finalize (g : Graph) : outcome Graph :=
  Ok {| _root := _root g; _IDMap := _IDMap g; _next_map := _next_map g;
        _prev_map := _prev_map g; _toposort := _add_order g;
        _add_order := _add_order g; _desc := _desc g;
        _pop_size := _pop_size g |}.

(** *** The depth-first sort that follows the [return] of [finalize] *)

(** The three [std::set<long>] of marks and the order under construction. *)
Record marks : Type := mkMarks {
  unmarked : gset Z;
  tempmarked : gset Z;
  permmarked : gset Z;
  sorted : list Z
}.

(** [void _visit(long n, set &unmarked, set &temp, set &perm)].  The recursion
    of the source is bounded by [fuel] here. *)
Fixpoint _visit (fuel : nat) (next : gmap Z (list Z)) (n : Z) (s : marks)
    : outcome marks :=
  match fuel with
  | O => Fuel
  | S fuel' =>
      if decide (n ∈ tempmarked s) then Throw domain_error
      else if decide (n ∈ unmarked s) then
        let s1 := {| unmarked := unmarked s ∖ {[n]};
                     tempmarked := tempmarked s ∪ {[n]};
                     permmarked := permmarked s;
                     sorted := sorted s |} in
        s2 ← (fix visit_all (ms : list Z) (s : marks) : outcome marks :=
                match ms with
                | [] => Ok s
                | m :: ms' => s' ← _visit fuel' next m s; visit_all ms' s'
                end) (default [] (next !! n)) s1;
        Ok {| unmarked := unmarked s2;
              tempmarked := tempmarked s2 ∖ {[n]};
              permmarked := permmarked s2 ∪ {[n]};
              sorted := sorted s2 ++ [n] |}
      else Ok s
  end.

(** The first element of a [std::set<long>]: its least element. *)
Definition set_begin (s : gset Z) : option Z :=
  foldr (λ x acc, Some (match acc with None => x | Some y => Z.min x y end))
        None (elements s).

(** The loop of [finalize] that visits the first unmarked node until no node
    is unmarked. *)
Fixpoint visit_unmarked (fuel : nat) (next : gmap Z (list Z)) (s : marks)
    : outcome marks :=
  match set_begin (unmarked s) with
  | None => Ok s
  | Some n =>
      match fuel with
      | O => Fuel
      | S fuel' => s' ← _visit fuel next n s; visit_unmarked fuel' next s'
      end
  end.

(** The statements of [finalize] below its [return]: what [finalize] would do
    if the early [return] were not there.  No call reaches them. *)
Definition finalize_after_return (fuel : nat) (g : Graph) : outcome Graph :=
  let linked :=
    map_fold (λ k _ acc,
                if bool_decide (is_Some (_next_map g !! k)
                                ∨ is_Some (_prev_map g !! k))
                then acc ∪ {[k]} else acc) (∅ : gset Z) (_IDMap g) in
  s ← visit_unmarked fuel (_next_map g)
        {| unmarked := linked; tempmarked := ∅; permmarked := ∅; sorted := [] |};
  Ok {| _root := _root g; _IDMap := _IDMap g; _next_map := _next_map g;
        _prev_map := _prev_map g; _toposort := reverse (sorted s);
        _add_order := _add_order g; _desc := _desc g;
        _pop_size := _pop_size g |}.

(** *** Topological iterator ([vargas::Graph::TopologicalIter]) *)

Record TopologicalIter : Type := mkIter {
  _graph : Graph;
  _idx : Z
}.

(** [begin()] throws [std::logic_error] on a graph that holds nodes and has
    no order. *)
Definition begin (g : Graph) : outcome TopologicalIter :=
  if bool_decide (_toposort g = [] ∧ _IDMap g ≠ ∅) then Throw logic_error
  else Ok {| _graph := g; _idx := 0 |}.

Definition end_ (g : Graph) : TopologicalIter :=
  {| _graph := g; _idx := Z.of_nat (length (_toposort g)) |}.

(** [bool operator==(const TopologicalIter &other) const]. *)
Definition iter_eq (this other : TopologicalIter) : bool :=
  if bool_decide (_toposort (_graph other) ≠ _toposort (_graph this)) then false
  else _idx this =? _idx other.

(** [bool operator!=(const TopologicalIter &other) const]. *)
Definition iter_ne (this other : TopologicalIter) : bool :=
  negb (_idx this =? _idx other).

(** ** Graph builder ([vargas::GraphBuilder]) *)

(** The configuration of a builder; its file handles play no part here. *)
Record GraphBuilder : Type := mkBuilder {
  _fa_file : string;
  _vf_file : string;
  _ingroup : Z;
  _max_node_len : Z
}.

(** [GraphBuilder(reffile, vcffile)], with the default member initialisers. *)
Definition new_builder (reffile vcffile : string) : GraphBuilder :=
  {| _fa_file := reffile; _vf_file := vcffile;
     _ingroup := 100; _max_node_len := 1000000 |}.

(** [void ingroup(int percent)]. *)
Definition ingroup (b : GraphBuilder) (percent : Z) : GraphBuilder :=
  if (percent <? 0) || (percent >? 100) then b
  else {| _fa_file := _fa_file b; _vf_file := _vf_file b;
          _ingroup := percent; _max_node_len := _max_node_len b |}.

(** ** Derived graphs *)

(** The members of a graph under construction by a derivation constructor
    before its body runs: the default member initialisers. *)
Definition blank_graph : Graph :=
  {| _root := -1; _IDMap := ∅; _next_map := ∅; _prev_map := ∅;
     _toposort := []; _add_order := []; _desc := ""; _pop_size := 0 |}.

Definition with_nodes_of (this g : Graph) : Graph :=
  {| _root := _root this; _IDMap := _IDMap g; _next_map := _next_map this;
     _prev_map := _prev_map this; _toposort := _toposort this;
     _add_order := _add_order this; _desc := _desc this;
     _pop_size := _pop_size g |}.

Definition with_add_order (this : Graph) (order : list Z) : Graph :=
  {| _root := _root this; _IDMap := _IDMap this; _next_map := _next_map this;
     _prev_map := _prev_map this; _toposort := _toposort this;
     _add_order := order; _desc := _desc this; _pop_size := _pop_size this |}.

Definition with_desc (this : Graph) (d : string) : Graph :=
  {| _root := _root this; _IDMap := _IDMap this; _next_map := _next_map this;
     _prev_map := _prev_map this; _toposort := _toposort this;
     _add_order := _add_order this; _desc := d; _pop_size := _pop_size this |}.

(** The inner loop of [_build_derived_edges]: the successors [es] of node [u]
    in the parent, each added when it is included. *)
Definition add_included_edges (inc : gmap Z Node) (u : Z) (es : list Z)
    (this : Graph) : Graph :=
  foldl (λ h e, match inc !! e with
                | Some _ => (add_edge h u e).2
                | None => h
                end) this es.

(** The body of the outer loop of [_build_derived_edges] for the included
    node [n]: nothing when [n] has no entry in the parent. *)
Definition add_edges_of (g : Graph) (inc : gmap Z Node) (n : Node)
    (this : Graph) : Graph :=
  match _next_map g !! _id n with
  | None => this
  | Some es => add_included_edges inc (_id n) es this
  end.

(** [void _build_derived_edges(const Graph &g,
                                const unordered_map &includedNodes)]. *)
Definition _build_derived_edges (this g : Graph) (inc : gmap Z Node)
    : outcome Graph :=
  let this1 := map_fold (λ _ n h, add_edges_of g inc n h) this inc in
  match inc !! _root g with
  | None => Throw invalid_argument
  | Some _ => Ok (set_root this1 (_root g))
  end.

(** The loop that erases from the copied insertion order, from its last
    position down to its first, every id that is not included. *)
Definition erase_excluded (inc : gmap Z Node) (order : list Z) : list Z :=
  foldr (λ id kept, match inc !! id with
                    | Some _ => id :: kept
                    | None => kept
                    end) [] order.

(** The indexes at which the filter is true, in increasing order. *)
Definition filter_indexes (filter : list bool) : list nat :=
  foldl (λ indexes i, if default false (filter !! i) then indexes ++ [i]
                      else indexes)
        [] (seq 0 (length filter)).

(** The nodes kept by a filter: for each node of the map, the first index of
    [indexes] to which the node belongs includes it. *)
Definition filter_included (g : Graph) (indexes : list nat) : gmap Z Node :=
  map_fold (λ k n inc, if existsb (λ i, truthy (belongs n i)) indexes
                       then <[k := n]> inc else inc) ∅ (_IDMap g).

Definition newline : string := String (ascii_of_nat 10) EmptyString.

Definition filter_desc (filter : list bool) : string :=
  foldl (λ d (b : bool), d +:+ (if b then "1" else "0") +:+ ",")%string
        ""%string filter.

(** [Graph(const Graph &g, const std::vector<bool> &filter)]. *)
Definition Graph_filter (g : Graph) (filter : list bool) : outcome Graph :=
  let this := with_nodes_of blank_graph g in
  let indexes := filter_indexes filter in
  let includedNodes := filter_included g indexes in
  this ← _build_derived_edges this g includedNodes;
  let this := with_add_order this (erase_excluded includedNodes (_add_order g)) in
  let this := with_desc this
                (_desc g +:+ newline +:+ "filter: " +:+ filter_desc filter) in
  finalize this.


(** The scan of the adjacency list for the successor of greatest frequency:
    [maxid] is replaced only by a strictly greater frequency. *)
Fixpoint scan_maxaf (nodes : gmap Z Node) (maxid : Z) (rest : list Z)
    : outcome Z :=
  match rest with
  | [] => Ok maxid
  | id :: rest' =>
      a ← map_at nodes id;
      b ← map_at nodes maxid;
      scan_maxaf nodes (if af_gt (_af a) (_af b) then id else maxid) rest'
  end.

(** The [while (true)] loop of the [MAXAF] case, bounded by [fuel]. *)
Fixpoint maxaf_walk (fuel : nat) (g : Graph) (curr : Z) (inc : gmap Z Node)
    : outcome (gmap Z Node) :=
  match fuel with
  | O => Fuel
  | S fuel' =>
      n ← map_at (_IDMap g) curr;
      let inc := <[curr := n]> inc in
      match _next_map g !! curr with
      | None => Ok inc
      | Some succs =>
          first ← vec_at succs 0;
          maxid ← scan_maxaf (_IDMap g) first (drop 1 succs);
          maxaf_walk fuel' g maxid inc
      end
  end.



(** ** Graph definitions ([Vargas::GraphManager::write]) *)

(** Modelled from the spec: the population bitset [dyn_bitset<32>], whose
    header is not part of the sources at hand.  The spec describes a
    fixed-width bitset with bitwise set operations and a population count; a
    population of width [w] is a list of [w] bits. *)
Abbreviation Population := (list bool) (only parsing).











Section GraphManager.

(** Twice the number of samples of the variant file. *)
Variable nsamps : nat.

(** [(int) (((double) parent_count / 100) * percent)]: the resolution of a
    percentage, computed in double precision by the source. *)
Variable percent_of : Z → Z → Z.





End GraphManager.





(** ** Construction scripts *)

(** A caller's use of the mutating interface of a graph. *)
Inductive op : Type :=
  | AddNode (n : Node)
  | AddEdge (u v : Z)
  | SetRoot (id : Z)
  | Finalize.

Definition run_op (g : Graph) (o : op) : Graph :=
  match o with
  | AddNode n => (add_node g n).2
  | AddEdge u v => (add_edge g u v).2
  | SetRoot id => set_root g id
  | Finalize => match finalize g with Ok g' => g' | _ => g end
  end.

Definition run (ops : list op) (g : Graph) : Graph := foldl run_op g ops.

(** A run of insertions. *)
Definition add_nodes (g : Graph) (ns : list Node) : Graph :=
  foldl (λ g n, (add_node g n).2) g ns.

(** ** Notions used by the statements *)

(** [u] occurs at an earlier position of [order] than [v]. *)
Definition before (order : list Z) (u v : Z) : Prop :=
  ∃ i j : nat, order !! i = Some u ∧ order !! j = Some v ∧ (i < j)%nat.

(** [u -> v] is recorded in the forward adjacency map. *)
Definition edge (g : Graph) (u v : Z) : Prop :=
  ∃ vs, _next_map g !! u = Some vs ∧ v ∈ vs.

(** Every recorded edge goes from an earlier to a later position of the
    cached order. *)
Definition respects_edges (g : Graph) : Prop :=
  ∀ u v, edge g u v → before (_toposort g) u v.

(** Every recorded edge goes forward in the insertion order. *)
Definition forward_edges (g : Graph) : Prop :=
  ∀ u v, edge g u v → before (_add_order g) u v.

(** A script in which every [add_edge(u, v)] is issued when [u] has been
    inserted before [v]. *)
Fixpoint forward_script (g : Graph) (ops : list op) : Prop :=
  match ops with
  | [] => True
  | o :: ops' =>
      match o with
      | AddEdge u v => before (_add_order g) u v
      | _ => True
      end ∧ forward_script (run_op g o) ops'
  end.

(** The keys of the node map are the ids of the nodes stored under them, as
    [add_node] establishes. *)
Definition keyed_by_id (nodes : gmap Z Node) : Prop :=
  map_Forall (λ k n, _id n = k) nodes.

(** Both ends of every recorded edge are nodes, as [add_edge] establishes. *)
Definition edges_closed (g : Graph) : Prop :=
  map_Forall (λ u vs, is_Some (_IDMap g !! u)
                      ∧ Forall (λ v, is_Some (_IDMap g !! v)) vs) (_next_map g).

(** The adjacency list of [k], empty when the map has no entry. *)
Definition adj (m : gmap Z (list Z)) (k : Z) : list Z := default [] (m !! k).

(** The two adjacency maps record the same edges, each as often, and hold no
    empty list. *)
Definition adjacency_consistent (g : Graph) : Prop :=
  (∀ u v, count_occ Z.eq_dec (adj (_prev_map g) v) u
          = count_occ Z.eq_dec (adj (_next_map g) u) v)
  ∧ (∀ u, _next_map g !! u ≠ Some [])
  ∧ (∀ v, _prev_map g !! v ≠ Some []).

(** A filter examines no bit beyond the population of a node. *)
Definition filter_fits (g : Graph) (filter : list bool) : Prop :=
  map_Forall (λ _ n, (length filter ≤ length (_individuals n))%nat) (_IDMap g).

(** The inclusion rule of the haplotype filter as the claim words it: a
    reference node, or a set bit of the node at an index where the filter is
    true. *)
Definition claimed_included (filter : list bool) (n : Node) : Prop :=
  _ref n = true
  ∨ ∃ i : nat, filter !! i = Some true ∧ _individuals n !! i = Some true.

(** Membership of an id in the map of included nodes. *)
Definition included (inc : gmap Z Node) (k : Z) : bool :=
  bool_decide (is_Some (inc !! k)).

(** The fields of a graph that edge insertion leaves alone. *)
Definition same_nodes (h h' : Graph) : Prop :=
  _IDMap h' = _IDMap h ∧ _root h' = _root h ∧ _add_order h' = _add_order h
  ∧ _desc h' = _desc h ∧ _pop_size h' = _pop_size h.

(** The successors of [u] in [g] that lie in the set [keep], in the order of
    the adjacency list of [g]; no entry when there is none. *)
Definition induced_next (g : Graph) (keep : Z → bool) (u : Z) : option (list Z) :=
  if keep u then
    match filter (λ v, keep v = true) (adj (_next_map g) u) with
    | [] => None
    | vs => Some vs
    end
  else None.






(** ** Example graphs *)

Definition plain_node (id : Z) (ref : bool) (af : Q) (pop : list bool) : Node :=
  {| _endPos := 0; _seq := []; _individuals := pop; _ref := ref; _af := af;
     _id := id |}.

(** Three nodes [1], [2], [3] inserted in this order and the edges
    [1 -> 2], [2 -> 3], [3 -> 1]. *)
Definition cycle3 : Graph :=
  run [AddNode (plain_node 1 true 1 []); AddNode (plain_node 2 true 1 []);
       AddNode (plain_node 3 true 1 []);
       AddEdge 1 2; AddEdge 2 3; AddEdge 3 1] new_graph.

(** Two nodes [1], [2] inserted in this order, the edge [2 -> 1], finalized. *)
Definition back_edge : Graph :=
  run [AddNode (plain_node 1 true 1 []); AddNode (plain_node 2 true 1 []);
       AddEdge 2 1; Finalize] new_graph.

(** The graph of the test case "Graph class" of [graph.h]: [AAA] (0), [CCC]
    (1, reference, 0.4), [GGG] (2, 0.6), [TTT] (3), with the edges [0 -> 1],
    [0 -> 2], [1 -> 3], [2 -> 3], finalized. *)
Definition diamond : Graph :=
  run [AddNode (plain_node 0 true 1 [false; true; true]);
       AddNode (plain_node 1 true (4 # 10) [false; false; true]);
       AddNode (plain_node 2 false (6 # 10) [false; true; false]);
       AddNode (plain_node 3 true 1 [false; true; true]);
       AddEdge 0 1; AddEdge 0 2; AddEdge 1 3; AddEdge 2 3; Finalize] new_graph.


(** A single reference node, finalized. *)
Definition lone_ref : Graph :=
  run [AddNode (plain_node 0 true 1 [true; true]); Finalize] new_graph.

(** A single node with id [1], finalized. *)
Definition lone_one : Graph :=
  run [AddNode (plain_node 1 true 1 [true; true]); Finalize] new_graph.

(** * Properties *)

(** ** Sequence codec *)

Lemma num_to_base_upper (n : Z) : upper_base (num_to_base n).
Proof.
  unfold upper_base, num_to_base.
  destruct n as [|p|p]; auto 6.
  do 3 (destruct p as [p|p|]; auto 6).
Qed.

Lemma base_to_num_to_base (n : Z) :
  0 ≤ n ≤ 4 → base_to_num (num_to_base n) = n.
Proof.
  intros Hn.
  assert (n = 0 ∨ n = 1 ∨ n = 2 ∨ n = 3 ∨ n = 4) as Hcases by lia.
  destruct Hcases as [->|[->|[->|[->| ->]]]]; reflexivity.
Qed.

Lemma num_to_base_to_num_upper (c : ascii) :
  upper_base c → num_to_base (base_to_num c) = c.
Proof. intros [->|[->|[->|[->| ->]]]]; reflexivity. Qed.

Lemma num_to_seq_upper (num : list Z) :
  Forall upper_base (chars (num_to_seq num)).
Proof.
  induction num as [|n num IH]; simpl; constructor; auto using num_to_base_upper.
Qed.

Lemma seq_to_num_to_seq (num : list Z) :
  Forall (λ n, 0 ≤ n ≤ 4) num → seq_to_num (num_to_seq num) = num.
Proof.
  induction 1 as [|n num Hn _ IH]; simpl; [done|].
  by rewrite base_to_num_to_base, IH.
Qed.

Lemma num_to_seq_to_num_upper (s : string) :
  Forall upper_base (chars s) → num_to_seq (seq_to_num s) = s.
Proof.
  induction s as [|c s IH]; simpl; [done|].
  intros [Hc Hs]%Forall_cons.
  by rewrite num_to_base_to_num_upper, IH.
Qed.

(** C6.  The codec round-trips.  For a numeric sequence [num] over [{0..4}],
    [seq_to_num (num_to_seq num)] is [num]; for every string [s],
    [num_to_seq (seq_to_num s)] is a string over the upper-case alphabet
    [{A,C,G,T,N}], and applying the composition a second time changes
    nothing; on a string [u] already over that alphabet the composition is
    the identity. *)
Theorem codec_round_trip (num : list Z) (s u : string)
    (Hnum : Forall (λ n, 0 ≤ n ≤ 4) num)
    (Hu : Forall upper_base (chars u)) :
  seq_to_num (num_to_seq num) = num
  ∧ Forall upper_base (chars (num_to_seq (seq_to_num s)))
  ∧ num_to_seq (seq_to_num (num_to_seq (seq_to_num s)))
    = num_to_seq (seq_to_num s)
  ∧ num_to_seq (seq_to_num u) = u.
Proof.
  split_and!.
  - by apply seq_to_num_to_seq.
  - apply num_to_seq_upper.
  - apply num_to_seq_to_num_upper, num_to_seq_upper.
  - by apply num_to_seq_to_num_upper.
Qed.

Lemma codec_round_trip_witness :
  seq_to_num (num_to_seq [0; 1; 2; 3; 4]) = [0; 1; 2; 3; 4]
  ∧ Forall upper_base (chars (num_to_seq (seq_to_num "acgtnACGTN-x")))
  ∧ num_to_seq (seq_to_num (num_to_seq (seq_to_num "acgtnACGTN-x")))
    = num_to_seq (seq_to_num "acgtnACGTN-x")
  ∧ num_to_seq (seq_to_num "GATTACAN") = "GATTACAN".
Proof.
  apply (codec_round_trip [0; 1; 2; 3; 4] "acgtnACGTN-x" "GATTACAN").
  - repeat (apply Forall_cons_2; [lia|]). apply Forall_nil_2.
  - simpl. repeat (apply Forall_cons_2; [unfold upper_base; auto 6|]).
    apply Forall_nil_2.
Defined.

(** ** Graph mutation *)

Lemma lookup_push_back_at (m : gmap Z (list Z)) (k x j : Z) :
  push_back_at (init_entry m k) k x !! j
  = if decide (k = j) then Some (default [] (m !! k) ++ [x]) else m !! j.
Proof.
  unfold push_back_at, init_entry.
  destruct (m !! k) as [l|] eqn:Hk.
  - rewrite Hk. rewrite lookup_insert. by destruct (decide (k = j)).
  - rewrite lookup_insert_eq. simpl. rewrite lookup_insert.
    destruct (decide (k = j)); [done|]. by rewrite lookup_insert_ne.
Qed.

(** C7.  [add_edge(u, v)] with [u] or [v] absent from the node map returns
    [false] and leaves the graph as it was; with both present it returns
    [true], appends [v] to [next[u]] and [u] to [prev[v]] (creating the entry
    when there was none), touches no other adjacency entry, clears the cached
    topological order and keeps the node map, the insertion order and the
    root. *)
Theorem add_edge_spec (g : Graph) (u v : Z) :
  (_IDMap g !! u = None ∨ _IDMap g !! v = None → add_edge g u v = (false, g))
  ∧ (is_Some (_IDMap g !! u) → is_Some (_IDMap g !! v) →
     ∃ g', add_edge g u v = (true, g')
       ∧ _next_map g' !! u = Some (default [] (_next_map g !! u) ++ [v])
       ∧ _prev_map g' !! v = Some (default [] (_prev_map g !! v) ++ [u])
       ∧ (∀ k, k ≠ u → _next_map g' !! k = _next_map g !! k)
       ∧ (∀ k, k ≠ v → _prev_map g' !! k = _prev_map g !! k)
       ∧ _toposort g' = []
       ∧ _IDMap g' = _IDMap g ∧ _add_order g' = _add_order g
       ∧ _root g' = _root g).
Proof.
  unfold add_edge. split.
  - intros [-> | Hv]; [done|]. rewrite Hv. by destruct (_IDMap g !! u).
  - intros [nu ->] [nv ->]. eexists. split; [done|]. simpl.
    split_and!; try done.
    + rewrite lookup_push_back_at. by rewrite decide_True.
    + rewrite lookup_push_back_at. by rewrite decide_True.
    + intros k Hk. rewrite lookup_push_back_at. by rewrite decide_False.
    + intros k Hk. rewrite lookup_push_back_at. by rewrite decide_False.
Qed.

Lemma add_edge_spec_witness :
  add_edge diamond 0 7 = (false, diamond)
  ∧ ∃ g', add_edge diamond 1 2 = (true, g')
      ∧ _next_map g' !! 1 = Some (default [] (_next_map diamond !! 1) ++ [2])
      ∧ _prev_map g' !! 2 = Some (default [] (_prev_map diamond !! 2) ++ [1])
      ∧ (∀ k, k ≠ 1 → _next_map g' !! k = _next_map diamond !! k)
      ∧ (∀ k, k ≠ 2 → _prev_map g' !! k = _prev_map diamond !! k)
      ∧ _toposort g' = []
      ∧ _IDMap g' = _IDMap diamond ∧ _add_order g' = _add_order diamond
      ∧ _root g' = _root diamond.
Proof.
  split.
  - apply (proj1 (add_edge_spec diamond 0 7)). right. reflexivity.
  - apply (proj2 (add_edge_spec diamond 1 2)); eexists; reflexivity.
Defined.

Lemma add_node_root_kept (g : Graph) (n : Node) :
  0 ≤ _root g → _root (add_node g n).2 = _root g.
Proof.
  intros Hr. unfold add_node. destruct (_IDMap g !! _id n); simpl; [done|].
  destruct (Z.ltb_spec (_root g) 0); [lia|done].
Qed.

Lemma add_nodes_root_kept (ns : list Node) (g : Graph) :
  0 ≤ _root g → _root (add_nodes g ns) = _root g.
Proof.
  revert g. induction ns as [|n ns IH]; intros g Hr; simpl; [done|].
  unfold add_nodes in *. simpl. rewrite IH; rewrite add_node_root_kept; done.
Qed.

(** C8.  [add_node(n)] on a graph that holds a node of the id of [n] returns
    [0] and leaves the graph as it was; otherwise it returns the id, stores
    [n] under it, appends the id to the insertion order and changes neither
    the adjacency maps nor the cached order.  The node inserted first into a
    new graph is its root, and stays the root through later insertions (ids
    are allocated from zero upwards). *)
Theorem add_node_spec (g : Graph) (n : Node) (ns : list Node) :
  (is_Some (_IDMap g !! _id n) → add_node g n = (0, g))
  ∧ (_IDMap g !! _id n = None →
     ∃ g', add_node g n = (_id n, g')
       ∧ _IDMap g' = <[_id n := n]> (_IDMap g)
       ∧ _add_order g' = _add_order g ++ [_id n]
       ∧ _root g' = (if _root g <? 0 then _id n else _root g)
       ∧ _next_map g' = _next_map g ∧ _prev_map g' = _prev_map g
       ∧ _toposort g' = _toposort g)
  ∧ (add_node new_graph n).1 = _id n
  ∧ _root (add_node new_graph n).2 = _id n
  ∧ (0 ≤ _id n → _root (add_nodes new_graph (n :: ns)) = _id n).
Proof.
  split_and!.
  - unfold add_node. by intros [x ->].
  - unfold add_node. intros ->. eexists. by split_and!.
  - reflexivity.
  - reflexivity.
  - intros Hid.
    change (add_nodes new_graph (n :: ns))
      with (add_nodes (add_node new_graph n).2 ns).
    assert (_root (add_node new_graph n).2 = _id n) as Hroot by reflexivity.
    rewrite add_nodes_root_kept; rewrite Hroot; done.
Qed.

Lemma add_node_spec_witness :
  add_node diamond (plain_node 2 true 1 []) = (0, diamond)
  ∧ (∃ g', add_node diamond (plain_node 9 true 1 []) = (9, g')
       ∧ _add_order g' = [0; 1; 2; 3; 9] ∧ _root g' = 0)
  ∧ _root (add_nodes new_graph
             [plain_node 5 true 1 []; plain_node 6 true 1 []]) = 5.
Proof.
  pose proof (add_node_spec diamond (plain_node 2 true 1 []) []) as (H1 & _).
  pose proof (add_node_spec diamond (plain_node 9 true 1 []) []) as (_ & H2 & _).
  pose proof (add_node_spec new_graph (plain_node 5 true 1 [])
                [plain_node 6 true 1 []]) as (_ & _ & _ & _ & H3).
  split_and!.
  - apply H1. eexists. reflexivity.
  - destruct H2 as (g' & Heq & _ & Ho & Hr & _); [reflexivity|].
    exists g'. split_and!; [exact Heq|exact Ho|exact Hr].
  - apply H3. simpl. lia.
Defined.

(** ** Graph builder *)

(** C10.  [ingroup(percent)] with [percent < 0] or [percent > 100] returns
    without raising and leaves the builder as it was: the configured
    percentage keeps its previous value, which is [100] on a new builder. *)
Theorem ingroup_out_of_range (b : GraphBuilder) (percent : Z) (ref vcf : string)
    (Hout : percent < 0 ∨ percent > 100) :
  ingroup b percent = b
  ∧ _ingroup (ingroup (new_builder ref vcf) percent) = 100.
Proof.
  assert (∀ b', ingroup b' percent = b') as Hsame.
  { intros b'. unfold ingroup.
    destruct (Z.ltb_spec percent 0); [done|].
    destruct (Z.gtb_spec percent 100); [done|lia]. }
  by rewrite !Hsame.
Qed.

Lemma ingroup_out_of_range_witness :
  ingroup (ingroup (new_builder "ref.fa" "var.vcf") 40) 101
  = ingroup (new_builder "ref.fa" "var.vcf") 40
  ∧ _ingroup (ingroup (new_builder "ref.fa" "var.vcf") 101) = 100.
Proof.
  apply (ingroup_out_of_range _ 101 "ref.fa" "var.vcf"). right. lia.
Defined.

(** ** Topological iterator *)

(** C9.  Two iterators at index [0], one on a graph whose order is [[0]] and
    one on a graph whose order is [[1]]: [operator==] compares the orders and
    answers [false]; [operator!=] compares the indices only and answers
    [false] as well. *)
Theorem iter_ne_ignores_orders :
  begin lone_ref = Ok (mkIter lone_ref 0)
  ∧ begin lone_one = Ok (mkIter lone_one 0)
  ∧ _toposort lone_ref = [0] ∧ _toposort lone_one = [1]
  ∧ iter_eq (mkIter lone_ref 0) (mkIter lone_one 0) = false
  ∧ iter_ne (mkIter lone_ref 0) (mkIter lone_one 0) = false.
Proof. by vm_compute. Qed.

(** With equal indices [operator!=] answers [false] whatever the two orders
    are. *)
Lemma iter_ne_same_index (a b : TopologicalIter) :
  _idx a = _idx b → iter_ne a b = false.
Proof. intros Heq. unfold iter_ne. rewrite Heq, Z.eqb_refl. done. Qed.

Lemma iter_eq_distinct_orders (a b : TopologicalIter) :
  _toposort (_graph a) ≠ _toposort (_graph b) → iter_eq a b = false.
Proof.
  intros Hne. unfold iter_eq. rewrite bool_decide_eq_true_2; [done|].
  intros Heq. by apply Hne.
Qed.

(** ** Finalization *)

Lemma finalize_ok (g : Graph) :
  ∃ g', finalize g = Ok g'
    ∧ _toposort g' = _add_order g ∧ _add_order g' = _add_order g
    ∧ _next_map g' = _next_map g ∧ _prev_map g' = _prev_map g
    ∧ _IDMap g' = _IDMap g ∧ _root g' = _root g.
Proof. eexists. by split_and!. Qed.

Lemma _visit_tempmarked (fuel : nat) (next : gmap Z (list Z)) (n : Z) (s : marks) :
  n ∈ tempmarked s → _visit (S fuel) next n s = Throw domain_error.
Proof. intros Hn. simpl. by rewrite decide_True. Qed.

(** C1, as the code has it.  [finalize] adopts the insertion order as the
    cached topological order and succeeds on every graph, cyclic or not: it
    returns before the depth-first sort.  The three-colour routine [_visit],
    which no call of [finalize] reaches, fails with the cycle error when it is
    entered on an in-progress node; the statements after the [return], were
    they run on the cycle [1 -> 2 -> 3 -> 1], would fail with it. *)
Theorem finalize_adopts_insertion_order (g : Graph) (fuel : nat)
    (next : gmap Z (list Z)) (n : Z) (s : marks) (Hn : n ∈ tempmarked s) :
  (∃ g', finalize g = Ok g'
     ∧ _toposort g' = _add_order g ∧ _add_order g' = _add_order g
     ∧ _next_map g' = _next_map g ∧ _prev_map g' = _prev_map g
     ∧ _IDMap g' = _IDMap g ∧ _root g' = _root g)
  ∧ _visit (S fuel) next n s = Throw domain_error
  ∧ finalize_after_return 4 cycle3 = Throw domain_error.
Proof.
  split_and!.
  - apply finalize_ok.
  - by apply _visit_tempmarked.
  - by vm_compute.
Qed.

Lemma finalize_adopts_insertion_order_witness :
  (∃ g', finalize cycle3 = Ok g'
     ∧ _toposort g' = _add_order cycle3 ∧ _add_order g' = _add_order cycle3
     ∧ _next_map g' = _next_map cycle3 ∧ _prev_map g' = _prev_map cycle3
     ∧ _IDMap g' = _IDMap cycle3 ∧ _root g' = _root cycle3)
  ∧ _visit 1 (_next_map cycle3) 1 (mkMarks {[2; 3]} {[1]} ∅ [])
    = Throw domain_error
  ∧ finalize_after_return 4 cycle3 = Throw domain_error.
Proof.
  apply (finalize_adopts_insertion_order cycle3 0 (_next_map cycle3) 1
           (mkMarks {[2; 3]} {[1]} ∅ [])).
  simpl. set_solver.
Defined.

(** C1, as the claim has it, fails: the graph [cycle3] holds the directed
    cycle [1 -> 2 -> 3 -> 1], and [finalize] succeeds on it with the order
    [[1; 2; 3]]. *)
Lemma finalize_cycle3_succeeds :
  edge cycle3 1 2 ∧ edge cycle3 2 3 ∧ edge cycle3 3 1
  ∧ finalize cycle3 ≠ Throw domain_error
  ∧ ∃ g', finalize cycle3 = Ok g' ∧ _toposort g' = [1; 2; 3].
Proof.
  split_and!.
  - exists [2]. split; [by vm_compute|set_solver].
  - exists [3]. split; [by vm_compute|set_solver].
  - exists [1]. split; [by vm_compute|set_solver].
  - discriminate.
  - eexists. split; [reflexivity|by vm_compute].
Qed.

(** ** Edges and the cached order *)

Lemma before_app (order extra : list Z) (u v : Z) :
  before order u v → before (order ++ extra) u v.
Proof.
  intros (i & j & Hi & Hj & Hlt). exists i, j.
  split_and!; [by apply lookup_app_l_Some..|done].
Qed.

Lemma forward_edges_new : forward_edges new_graph.
Proof. intros u v (vs & Hvs & _). simpl in Hvs. by rewrite lookup_empty in Hvs. Qed.

Lemma forward_edges_add_node (g : Graph) (n : Node) :
  forward_edges g → forward_edges (add_node g n).2.
Proof.
  intros Hg. unfold add_node. destruct (_IDMap g !! _id n); [done|].
  intros u v Huv. simpl. apply before_app. by apply Hg.
Qed.

Lemma forward_edges_add_edge (g : Graph) (u v : Z) :
  before (_add_order g) u v → forward_edges g → forward_edges (add_edge g u v).2.
Proof.
  intros Huv Hg. unfold add_edge.
  destruct (_IDMap g !! u); [|done]. destruct (_IDMap g !! v); [|done].
  intros a b (bs & Hbs & Hb). simpl in *.
  rewrite lookup_push_back_at in Hbs. destruct (decide (u = a)) as [<-|Hne].
  - injection Hbs as <-. apply elem_of_app in Hb as [Hb|Hb].
    + apply Hg. destruct (_next_map g !! u) as [old|] eqn:Hold.
      * by exists old.
      * simpl in Hb. by apply elem_of_nil in Hb.
    + apply list_elem_of_singleton in Hb as ->. done.
  - apply Hg. by exists bs.
Qed.

Lemma forward_edges_run (ops : list op) (g : Graph) :
  forward_script g ops → forward_edges g → forward_edges (run ops g).
Proof.
  revert g. induction ops as [|o ops IH]; intros g Hops Hg; [done|].
  destruct Hops as [Ho Hops]. unfold run. simpl. apply IH; [done|].
  destruct o as [n|u v|id|]; simpl.
  - by apply forward_edges_add_node.
  - by apply forward_edges_add_edge.
  - done.
  - done.
Qed.

(** C2, as the code has it.  A graph built from a new graph by a script in
    which every [add_edge(u, v)] is issued with [u] inserted before [v] is
    finalized with success, and in the finalized graph every recorded edge
    [u -> v] has [u] at an earlier position of the cached topological order
    than [v]. *)
Theorem forward_script_respects_edges (ops : list op)
    (Hfwd : forward_script new_graph ops) :
  ∃ g', finalize (run ops new_graph) = Ok g' ∧ respects_edges g'.
Proof.
  eexists. split; [reflexivity|].
  intros u v Huv. simpl.
  by apply (forward_edges_run ops new_graph Hfwd forward_edges_new).
Qed.

Lemma forward_script_respects_edges_witness :
  ∃ g', finalize (run [AddNode (plain_node 0 true 1 []);
                       AddNode (plain_node 1 true 1 []);
                       AddNode (plain_node 2 true 1 []);
                       AddEdge 0 1; AddEdge 0 2; AddEdge 1 2] new_graph) = Ok g'
        ∧ respects_edges g'.
Proof.
  apply forward_script_respects_edges.
  simpl. split_and!; try exact I.
  - exists 0%nat, 1%nat. split_and!; [reflexivity|reflexivity|lia].
  - exists 0%nat, 2%nat. split_and!; [reflexivity|reflexivity|lia].
  - exists 1%nat, 2%nat. split_and!; [reflexivity|reflexivity|lia].
Defined.

(** C2, as the claim has it, fails: [back_edge] is finalized, records the edge
    [2 -> 1], and its cached order is [[1; 2]]. *)
Lemma back_edge_not_respected :
  _toposort back_edge = [1; 2] ∧ edge back_edge 2 1
  ∧ ¬ before (_toposort back_edge) 2 1
  ∧ ¬ respects_edges back_edge.
Proof.
  assert (_toposort back_edge = [1; 2]) as Hsort by (by vm_compute).
  assert (edge back_edge 2 1) as Hedge.
  { exists [1]. split; [by vm_compute|set_solver]. }
  assert (¬ before (_toposort back_edge) 2 1) as Hnot.
  { rewrite Hsort. intros (i & j & Hi & Hj & Hlt).
    destruct i as [|[|i]]; simpl in Hi; try discriminate.
    destruct j as [|j]; simpl in Hj; [lia|].
    destruct j; simpl in Hj; discriminate. }
  split_and!; try done.
  intros Hall. apply Hnot. by apply Hall.
Qed.

(** ** Graph definitions *)



(** Bitwise facts on populations of one width. *)




















(** ** Derived graphs *)

Lemma adj_push_back_at (m : gmap Z (list Z)) (k x j : Z) :
  adj (push_back_at (init_entry m k) k x) j
  = if decide (k = j) then adj m k ++ [x] else adj m j.
Proof.
  unfold adj. rewrite lookup_push_back_at. by destruct (decide (k = j)).
Qed.

Lemma lookup_adj (m : gmap Z (list Z)) (k : Z) :
  m !! k ≠ Some [] →
  m !! k = match adj m k with [] => None | vs => Some vs end.
Proof. unfold adj. destruct (m !! k) as [[|v vs]|]; done. Qed.

Lemma add_edge_same_nodes (g : Graph) (u v : Z) :
  same_nodes g (add_edge g u v).2.
Proof.
  unfold add_edge, same_nodes. by destruct (_IDMap g !! u), (_IDMap g !! v).
Qed.

Lemma add_edge_adj (g : Graph) (u v : Z) :
  is_Some (_IDMap g !! u) → is_Some (_IDMap g !! v) →
  (∀ k, adj (_next_map (add_edge g u v).2) k
        = if decide (u = k) then adj (_next_map g) u ++ [v]
          else adj (_next_map g) k)
  ∧ (∀ k, adj (_prev_map (add_edge g u v).2) k
          = if decide (v = k) then adj (_prev_map g) v ++ [u]
            else adj (_prev_map g) k).
Proof.
  intros [nu Hu] [nv Hv]. unfold add_edge. rewrite Hu, Hv. simpl.
  split; intros k; apply adj_push_back_at.
Qed.

Lemma add_edge_consistent (g : Graph) (u v : Z) :
  adjacency_consistent g → adjacency_consistent (add_edge g u v).2.
Proof.
  intros (Hcount & Hnext & Hprev). unfold add_edge.
  destruct (_IDMap g !! u) as [nu|]; [|done].
  destruct (_IDMap g !! v) as [nv|]; [|done]. cbn [snd _next_map _prev_map].
  split_and!.
  - intros a b. cbn [_next_map _prev_map]. rewrite !adj_push_back_at.
    specialize (Hcount a b).
    destruct (decide (v = b)) as [<-|Hb], (decide (u = a)) as [<-|Ha];
      rewrite ?count_occ_app, Hcount; simpl;
      repeat destruct (Z.eq_dec _ _); try congruence; lia.
  - intros k. cbn [_next_map]. rewrite lookup_push_back_at.
    destruct (decide (u = k)).
    + intros [= Heq]. by destruct (default [] (_next_map g !! u)).
    + apply Hnext.
  - intros k. cbn [_prev_map]. rewrite lookup_push_back_at.
    destruct (decide (v = k)).
    + intros [= Heq]. by destruct (default [] (_prev_map g !! v)).
    + apply Hprev.
Qed.

Lemma same_nodes_trans (a b c : Graph) :
  same_nodes a b → same_nodes b c → same_nodes a c.
Proof. unfold same_nodes. intros ? ?. destruct_and!. split_and!; congruence. Qed.

Lemma add_included_edges_spec (inc : gmap Z Node) (u : Z) (es : list Z)
    (h : Graph) :
  is_Some (_IDMap h !! u) →
  (∀ e, is_Some (inc !! e) → is_Some (_IDMap h !! e)) →
  same_nodes h (add_included_edges inc u es h)
  ∧ (adjacency_consistent h →
     adjacency_consistent (add_included_edges inc u es h))
  ∧ (∀ k, adj (_next_map (add_included_edges inc u es h)) k
          = if decide (u = k)
            then adj (_next_map h) u ++ filter (λ e, included inc e = true) es
            else adj (_next_map h) k).
Proof.
  revert h. induction es as [|e es IH]; intros h Hu Hinc.
  - split_and!; [done|done|]. intros k. simpl. rewrite app_nil_r.
    by destruct (decide (u = k)) as [<-|].
  - unfold add_included_edges in *. simpl.
    destruct (inc !! e) as [ne|] eqn:He.
    + pose proof (add_edge_same_nodes h u e) as Hsame.
      destruct Hsame as (Hmap & Hrest).
      destruct (IH (add_edge h u e).2) as (Hsame' & Hcons & Hadj).
      { by rewrite Hmap. }
      { intros e' He'. rewrite Hmap. by apply Hinc. }
      destruct (add_edge_adj h u e) as [Hnext _]; [done|by apply Hinc|].
      split_and!.
      * eapply same_nodes_trans; [|exact Hsame']. by split.
      * intros Hh. by apply Hcons, add_edge_consistent.
      * intros k. rewrite Hadj.
        rewrite filter_cons_True by (unfold included; by rewrite He).
        destruct (decide (u = k)) as [<-|Hk]; rewrite Hnext.
        -- rewrite decide_True by done. by rewrite <-app_assoc.
        -- by rewrite decide_False.
    + destruct (IH h Hu Hinc) as (Hsame & Hcons & Hadj).
      split_and!; [done|done|].
      intros k. rewrite Hadj.
      rewrite filter_cons_False; [done|].
      unfold included. rewrite He. rewrite bool_decide_eq_false_2; [done|].
      by intros [? ?].
Qed.

Lemma same_nodes_refl (h : Graph) : same_nodes h h.
Proof. by unfold same_nodes. Qed.

Lemma derived_edges_fold (g this : Graph) (inc : gmap Z Node) :
  keyed_by_id inc →
  (∀ k, is_Some (inc !! k) → is_Some (_IDMap this !! k)) →
  adjacency_consistent this →
  (∀ k, adj (_next_map this) k = []) →
  ∀ m : gmap Z Node,
    m ⊆ inc →
    same_nodes this (map_fold (λ _ n h, add_edges_of g inc n h) this m)
    ∧ adjacency_consistent (map_fold (λ _ n h, add_edges_of g inc n h) this m)
    ∧ ∀ k, adj (_next_map (map_fold (λ _ n h, add_edges_of g inc n h) this m)) k
           = if decide (is_Some (m !! k))
             then filter (λ e, included inc e = true) (adj (_next_map g) k)
             else [].
Proof.
  intros Hkeys Hinc Hcons Hempty.
  refine (map_fold_weak_ind (λ h m, m ⊆ inc →
           same_nodes this h ∧ adjacency_consistent h
           ∧ ∀ k, adj (_next_map h) k
                  = if decide (is_Some (m !! k))
                    then filter (λ e, included inc e = true) (adj (_next_map g) k)
                    else []) _ this _ _).
  - intros _. split_and!; [apply same_nodes_refl|done|].
    intros k. rewrite Hempty, lookup_empty.
    rewrite decide_False; [done|]. by intros [? ?].
  - intros i x m r Hi IH Hsub.
    assert (m ⊆ inc) as Hm.
    { etrans; [|exact Hsub]. by apply insert_subseteq. }
    destruct (IH Hm) as (Hsame & Hr & Hadj).
    assert (inc !! i = Some x) as Hix.
    { eapply lookup_weaken; [|exact Hsub]. by rewrite lookup_insert_eq. }
    assert (_id x = i) as Hid by (by apply (Hkeys i x)).
    unfold add_edges_of. rewrite Hid.
    assert (∀ k, is_Some (<[i:=x]> m !! k) ↔ k = i ∨ is_Some (m !! k)) as Hdom.
    { intros k. rewrite lookup_insert_is_Some'. split; intros [?|?]; auto. }
    destruct (_next_map g !! i) as [es|] eqn:Hes.
    + destruct (add_included_edges_spec inc i es r) as (Hsame' & Hcons' & Hadj').
      { destruct Hsame as (-> & _). by apply Hinc. }
      { intros e He. destruct Hsame as (-> & _). by apply Hinc. }
      split_and!.
      * by eapply same_nodes_trans.
      * by apply Hcons'.
      * intros k. rewrite Hadj', !Hadj.
        destruct (decide (i = k)) as [<-|Hk].
        -- rewrite decide_False by (rewrite Hi; by intros [? ?]).
           rewrite decide_True by (apply Hdom; by left).
           unfold adj. by rewrite Hes.
        -- destruct (decide (is_Some (m !! k))) as [Hk'|Hk'].
           ++ rewrite decide_True; [done|]. apply Hdom. by right.
           ++ rewrite decide_False; [done|].
           intros Hx. apply Hdom in Hx as [->|Hx]; done.
    + split_and!; [done|done|].
      intros k. rewrite Hadj.
      destruct (decide (i = k)) as [<-|Hk].
      * rewrite decide_False by (rewrite Hi; by intros [? ?]).
        rewrite decide_True by (apply Hdom; by left).
        unfold adj. by rewrite Hes.
      * destruct (decide (is_Some (m !! k))) as [Hk'|Hk'].
        -- rewrite decide_True; [done|]. apply Hdom. by right.
        -- rewrite decide_False; [done|].
           intros Hx. apply Hdom in Hx as [->|Hx]; done.
Qed.

Lemma adjacency_consistent_empty (this : Graph) :
  _next_map this = ∅ → _prev_map this = ∅ → adjacency_consistent this.
Proof.
  intros Hn Hp. unfold adjacency_consistent, adj. rewrite Hn, Hp.
  split_and!; intros; by rewrite ?lookup_empty.
Qed.

Lemma _build_derived_edges_spec (this g : Graph) (inc : gmap Z Node) :
  _IDMap this = _IDMap g → _next_map this = ∅ → _prev_map this = ∅ →
  keyed_by_id inc →
  (∀ k, is_Some (inc !! k) → is_Some (_IDMap g !! k)) →
  (inc !! _root g = None →
   _build_derived_edges this g inc = Throw invalid_argument)
  ∧ (is_Some (inc !! _root g) →
     ∃ h, _build_derived_edges this g inc = Ok h
       ∧ _IDMap h = _IDMap g ∧ _root h = _root g
       ∧ _add_order h = _add_order this ∧ _desc h = _desc this
       ∧ _pop_size h = _pop_size this
       ∧ adjacency_consistent h
       ∧ ∀ u, _next_map h !! u = induced_next g (included inc) u).
Proof.
  intros Hmap Hnext Hprev Hkeys Hinc. unfold _build_derived_edges. split.
  { by intros ->. }
  intros [nr ->].
  destruct (derived_edges_fold g this inc Hkeys) with (m := inc)
    as ((Hm & Hr & Ho & Hd & Hp) & Hcons & Hadj).
  { intros k Hk. rewrite Hmap. by apply Hinc. }
  { by apply adjacency_consistent_empty. }
  { intros k. unfold adj. by rewrite Hnext, lookup_empty. }
  { done. }
  eexists. split; [reflexivity|]. simpl.
  split_and!; try congruence.
  - destruct Hcons as (? & ? & ?). by split_and!.
  - intros u. destruct Hcons as (_ & Hne & _).
    rewrite (lookup_adj _ u (Hne u)), Hadj.
    unfold induced_next.
    destruct (decide (is_Some (inc !! u))) as [Hu|Hu].
    + assert (included inc u = true) as -> by (by apply bool_decide_eq_true_2).
      done.
    + assert (included inc u = false) as -> by (by apply bool_decide_eq_false_2).
      done.
Qed.

Lemma erase_excluded_filter (inc : gmap Z Node) (order : list Z) :
  erase_excluded inc order = filter (λ id, included inc id = true) order.
Proof.
  induction order as [|id order IH]; [done|]. simpl. rewrite IH.
  destruct (inc !! id) as [n|] eqn:Hid.
  - rewrite filter_cons_True; [done|].
    unfold included. rewrite Hid. by apply bool_decide_eq_true_2.
  - rewrite filter_cons_False; [done|].
    unfold included. rewrite Hid. rewrite bool_decide_eq_false_2; [done|].
    by intros [? ?].
Qed.

Lemma filter_indexes_from (filter : list bool) (n a : nat) (indexes : list nat)
    (i : nat) :
  i ∈ foldl (λ indexes i, if default false (filter !! i) then indexes ++ [i]
                          else indexes) indexes (seq a n)
  ↔ i ∈ indexes ∨ ((a ≤ i < a + n)%nat ∧ filter !! i = Some true).
Proof.
  revert a indexes. induction n as [|n IH]; intros a indexes; simpl.
  - split; [by left|]. intros [?|[? _]]; [done|lia].
  - rewrite IH. destruct (filter !! a) as [[]|] eqn:Ha; simpl.
    + rewrite elem_of_app, list_elem_of_singleton. split.
      * intros [[?| ->]|[? ?]]; [by left|right|right]; (split; [lia|done]).
      * intros [?|[Hr Hi]]; [by left; left|].
        destruct (decide (i = a)) as [->|]; [by left; right|].
        right. split; [lia|done].
    + split.
      * intros [?|[? ?]]; [by left|]. right. split; [lia|done].
      * intros [?|[Hr Hi]]; [by left|].
        destruct (decide (i = a)) as [->|]; [congruence|].
        right. split; [lia|done].
    + split.
      * intros [?|[? ?]]; [by left|]. right. split; [lia|done].
      * intros [?|[Hr Hi]]; [by left|].
        destruct (decide (i = a)) as [->|]; [congruence|].
        right. split; [lia|done].
Qed.

Lemma elem_of_filter_indexes (filter : list bool) (i : nat) :
  i ∈ filter_indexes filter ↔ filter !! i = Some true.
Proof.
  unfold filter_indexes. rewrite filter_indexes_from. split.
  - intros [Hi|[_ ?]]; [|done]. by apply elem_of_nil in Hi.
  - intros Hi. right. split; [|done].
    apply lookup_lt_Some in Hi. lia.
Qed.

Lemma belongs_truthy (n : Node) (i : nat) :
  truthy (belongs n i) = true ↔ _ref n = true ∨ _individuals n !! i = Some true.
Proof.
  unfold truthy, belongs. destruct (_ref n); simpl.
  - split; [by left|done].
  - destruct (_individuals n !! i) as [[]|]; simpl; split; try done.
    + by right.
    + by intros [?|?].
    + by intros [?|?].
Qed.

Lemma filter_included_lookup (g : Graph) (indexes : list nat) (k : Z) (n : Node) :
  filter_included g indexes !! k = Some n
  ↔ _IDMap g !! k = Some n
    ∧ existsb (λ i, truthy (belongs n i)) indexes = true.
Proof.
  unfold filter_included. revert k n.
  refine (map_fold_weak_ind (λ inc m, ∀ k n,
            inc !! k = Some n
            ↔ m !! k = Some n
              ∧ existsb (λ i, truthy (belongs n i)) indexes = true) _ _ _ _ _).
  - intros k n. rewrite !lookup_empty. by split; [|intros [? _]].
  - intros i x m r Hi IH k n.
    destruct (existsb _ indexes) eqn:Hx.
    + rewrite !lookup_insert. destruct (decide (i = k)) as [<-|Hk].
      * split; [intros [= <-]; by split|by intros [? _]].
      * apply IH.
    + rewrite lookup_insert. destruct (decide (i = k)) as [<-|Hk].
      * rewrite IH, Hi. split; [by intros [? _]|].
        intros [[= <-] Hn]. congruence.
      * apply IH.
Qed.

Lemma filter_included_rule (g : Graph) (f : list bool) (k : Z) (n : Node) :
  filter_included g (filter_indexes f) !! k = Some n
  ↔ _IDMap g !! k = Some n
    ∧ (∃ i : nat, f !! i = Some true) ∧ claimed_included f n.
Proof.
  rewrite filter_included_lookup, existsb_exists. unfold claimed_included.
  split.
  - intros (Hk & i & Hi & Hb). split; [done|].
    apply list_elem_of_In, elem_of_filter_indexes in Hi.
    apply belongs_truthy in Hb. split; [by exists i|].
    destruct Hb as [?|?]; [by left|]. right. by exists i.
  - intros (Hk & [i Hi] & Hc). split; [done|].
    destruct Hc as [Href|(j & Hj & Hbit)].
    + exists i. split; [by apply list_elem_of_In, elem_of_filter_indexes|].
      apply belongs_truthy. by left.
    + exists j. split; [by apply list_elem_of_In, elem_of_filter_indexes|].
      apply belongs_truthy. by right.
Qed.

(** C3, as the code has it.  The haplotype-filter derivation of [g] by [f]
    includes a node if and only if the filter has a true entry and the node
    is a reference node or its haplotype bitset has a set bit at an index
    where the filter is true.  When the root of [g] is included, the derived
    graph shares the node map and the root of [g], its forward adjacency is
    the one of [g] restricted to the included nodes (successors kept in the
    order of [g]), its reverse adjacency records the same edges, and its
    insertion order, which is its topological order, is the insertion order
    of [g] restricted to the included nodes.  When the root is not included,
    as for every filter without a true entry, the derivation fails with
    [std::invalid_argument]. *)
Theorem filter_derivation (g : Graph) (f : list bool)
    (Hkeys : keyed_by_id (_IDMap g)) (Hfits : filter_fits g f) :
  (∀ k n, filter_included g (filter_indexes f) !! k = Some n
          ↔ _IDMap g !! k = Some n
            ∧ (∃ i : nat, f !! i = Some true) ∧ claimed_included f n)
  ∧ (filter_included g (filter_indexes f) !! _root g = None →
     Graph_filter g f = Throw invalid_argument)
  ∧ (is_Some (filter_included g (filter_indexes f) !! _root g) →
     ∃ h, Graph_filter g f = Ok h
       ∧ _IDMap h = _IDMap g ∧ _root h = _root g
       ∧ (∀ u, _next_map h !! u
               = induced_next g (included (filter_included g (filter_indexes f))) u)
       ∧ adjacency_consistent h
       ∧ _add_order h
         = filter (λ id, included (filter_included g (filter_indexes f)) id = true)
                  (_add_order g)
       ∧ _toposort h = _add_order h).
Proof.
  split; [intros k n; apply filter_included_rule|].
  set (inc := filter_included g (filter_indexes f)).
  assert (∀ k n, inc !! k = Some n → _IDMap g !! k = Some n) as Hsub.
  { intros k n Hk. by apply filter_included_rule in Hk as [? _]. }
  destruct (_build_derived_edges_spec (with_nodes_of blank_graph g) g inc)
    as [Hnone Hsome]; try done.
  { intros k n Hk. apply (Hkeys k n). by apply Hsub. }
  { intros k [n Hk]. exists n. by apply Hsub. }
  unfold Graph_filter. fold inc. split.
  - intros Hroot. by rewrite (Hnone Hroot).
  - intros Hroot.
    destruct (Hsome Hroot) as (h & -> & Hm & Hr & Ho & Hd & Hp & Hcons & Hnext).
    eexists. split; [reflexivity|]. simpl.
    split_and!; try done.
    apply erase_excluded_filter.
Qed.

Lemma filter_derivation_witness :
  filter_included diamond (filter_indexes [false; false; true]) !! 2 = None
  ∧ ∃ h, Graph_filter diamond [false; false; true] = Ok h
      ∧ _next_map h !! 0 = Some [1]
      ∧ _add_order h = [0; 1; 3].
Proof.
  assert (keyed_by_id (_IDMap diamond)) as Hkeys.
  { unfold keyed_by_id. apply (bool_decide_unpack _). by vm_compute. }
  assert (filter_fits diamond [false; false; true]) as Hfits.
  { unfold filter_fits. apply (bool_decide_unpack _). by vm_compute. }
  destruct (filter_derivation diamond [false; false; true] Hkeys Hfits)
    as (_ & _ & Hok).
  split; [by vm_compute|].
  destruct Hok as (h & Hh & _ & _ & Hnext & _ & Horder & _).
  { eexists. by vm_compute. }
  exists h. split; [done|]. rewrite Hnext, Horder. split; by vm_compute.
Defined.

(** C3, as the claim has it, fails: node [0] of [lone_ref] is a reference
    node, the all-false filter does not include it, and the derivation
    throws. *)
Lemma all_false_filter_excludes_reference :
  _IDMap lone_ref !! 0 = Some (plain_node 0 true 1 [true; true])
  ∧ claimed_included [false; false] (plain_node 0 true 1 [true; true])
  ∧ filter_included lone_ref (filter_indexes [false; false]) !! 0 = None
  ∧ Graph_filter lone_ref [false; false] = Throw invalid_argument.
Proof. split_and!; [by vm_compute|by left|by vm_compute|by vm_compute]. Qed.

(** ** The walk of greatest allele frequency *)















Lemma adjacency_consistent_maps (g g' : Graph) :
  _next_map g' = _next_map g → _prev_map g' = _prev_map g →
  adjacency_consistent g → adjacency_consistent g'.
Proof. unfold adjacency_consistent. by intros -> ->. Qed.







(** ** Invariants of graphs built through the interface *)

Lemma keyed_by_id_run (ops : list op) (g : Graph) :
  keyed_by_id (_IDMap g) → keyed_by_id (_IDMap (run ops g)).
Proof.
  revert g. induction ops as [|o ops IH]; intros g Hg; [done|].
  unfold run. simpl. apply IH. destruct o as [n|u v|id|]; simpl; try done.
  - unfold add_node. destruct (_IDMap g !! _id n) eqn:Hn; [done|]. simpl.
    by apply map_Forall_insert_2.
  - by rewrite (proj1 (add_edge_same_nodes g u v)).
Qed.

Lemma edges_closed_run (ops : list op) (g : Graph) :
  edges_closed g → edges_closed (run ops g).
Proof.
  revert g. induction ops as [|o ops IH]; intros g Hg; [done|].
  unfold run. simpl. apply IH. destruct o as [n|u v|id|]; simpl; try done.
  - unfold add_node. destruct (_IDMap g !! _id n) eqn:Hn; [done|].
    intros a vs Ha. simpl in *. destruct (Hg a vs Ha) as [Hu Hvs].
    assert (∀ k, is_Some (_IDMap g !! k) →
                 is_Some (<[_id n:=n]> (_IDMap g) !! k)) as Hmono.
    { intros k Hk. apply lookup_insert_is_Some'. by right. }
    split; [by apply Hmono|]. eapply Forall_impl; [exact Hvs|]. apply Hmono.
  - unfold add_edge.
    destruct (_IDMap g !! u) as [nu|] eqn:Hu; [|done].
    destruct (_IDMap g !! v) as [nv|] eqn:Hv; [|done].
    intros a vs Ha. simpl in *. rewrite lookup_push_back_at in Ha.
    destruct (decide (u = a)) as [<-|Hne]; [|by apply (Hg a vs)].
    injection Ha as <-. split; [by eexists|].
    apply Forall_app. split.
    + destruct (_next_map g !! u) as [old|] eqn:Hold; [|by constructor].
      by destruct (Hg u old Hold).
    + repeat constructor. by eexists.
Qed.

Lemma before_filter (P : Z → Prop) `{∀ x, Decision (P x)} (order : list Z)
    (u v : Z) :
  before order u v → P u → P v → before (filter P order) u v.
Proof.
  intros (i & j & Hi & Hj & Hlt) Hu Hv.
  rewrite <-(take_drop_middle order i u Hi).
  assert (drop (S i) order !! (j - S i)%nat = Some v) as Hj'.
  { rewrite lookup_drop. rewrite <-Hj. f_equal. lia. }
  rewrite <-(take_drop_middle _ _ v Hj').
  rewrite filter_app, filter_cons_True, filter_app, filter_cons_True by done.
  exists (length (filter P (take i order))),
         (length (filter P (take i order))
          + S (length (filter P (take (j - S i) (drop (S i) order)))))%nat.
  split_and!; [|  |lia].
  - by rewrite lookup_app_r, Nat.sub_diag.
  - rewrite lookup_app_r by lia.
    replace (_ + S _ - _)%nat
      with (S (length (filter P (take (j - S i) (drop (S i) order))))) by lia.
    simpl. by rewrite lookup_app_r, Nat.sub_diag.
Qed.

(** A graph derived from [g] on the nodes kept by [keep] inherits the
    forward direction of the edges of [g]. *)
Lemma derived_respects_edges (g h : Graph) (keep : Z → bool) :
  forward_edges g →
  (∀ u, _next_map h !! u = induced_next g keep u) →
  _toposort h = filter (λ id, keep id = true) (_add_order g) →
  respects_edges h.
Proof.
  intros Hg Hnext Horder u v (vs & Hvs & Hv). rewrite Horder.
  rewrite Hnext in Hvs. unfold induced_next in Hvs.
  destruct (keep u) eqn:Hu; [|done].
  destruct (filter _ (adj (_next_map g) u)) as [|x xs] eqn:Hf; [done|].
  injection Hvs as <-. rewrite <-Hf in Hv.
  apply list_elem_of_filter in Hv as [Hkv Hv].
  apply before_filter; [|done|done]. apply Hg.
  unfold adj in Hv. destruct (_next_map g !! u) as [l|] eqn:Hl.
  - by exists l.
  - by apply elem_of_nil in Hv.
Qed.

Lemma maxaf_walk_unfold (fuel : nat) (g : Graph) (curr : Z) (inc : gmap Z Node) :
  maxaf_walk (S fuel) g curr inc
  = (n ← map_at (_IDMap g) curr;
     match _next_map g !! curr with
     | None => Ok (<[curr := n]> inc)
     | Some succs =>
         first ← vec_at succs 0;
         maxid ← scan_maxaf (_IDMap g) first (drop 1 succs);
         maxaf_walk fuel g maxid (<[curr := n]> inc)
     end).
Proof. reflexivity. Qed.

(** On the cycle [1 -> 2 -> 3 -> 1] the walk uses up every budget. *)
Lemma maxaf_walk_cycle3 (fuel : nat) (x : Z) (inc : gmap Z Node) :
  x = 1 ∨ x = 2 ∨ x = 3 → maxaf_walk fuel cycle3 x inc = Fuel.
Proof.
  revert x inc. induction fuel as [|fuel IH]; intros x inc Hx; [done|].
  assert (∃ n y, _IDMap cycle3 !! x = Some n ∧ _next_map cycle3 !! x = Some [y]
                 ∧ (y = 1 ∨ y = 2 ∨ y = 3)) as (n & y & Hn & Hy & Hyc).
  { destruct Hx as [->|[->| ->]].
    - exists (plain_node 1 true 1 []), 2. split_and!; [by vm_compute..|auto].
    - exists (plain_node 2 true 1 []), 3. split_and!; [by vm_compute..|auto].
    - exists (plain_node 3 true 1 []), 1. split_and!; [by vm_compute..|auto]. }
  rewrite maxaf_walk_unfold. unfold map_at. rewrite Hn, Hy.
  change (vec_at [y] 0) with (Ok y). change (drop 1 [y]) with (@nil Z).
  change (scan_maxaf (_IDMap cycle3) y []) with (Ok y).
  by apply IH.
Qed.
